(** * MiditoBytebeat: the expression compiler and the sample synthesizer

    A shallow embedding of [src/bytebeatUtils.ts] ([generateBytebeat],
    [pitchToCoeff]) and of the audio callback of the application component
    ([startPlayback], [onaudioprocess], [stopPlayback]).

    JavaScript numbers are modelled as exact rationals extended with the
    three special values NaN, +Infinity and -Infinity.  The special-value
    rules of every operator are those of ECMAScript; on finite values the
    operators are exact (the rounding of binary64 and the sign of zero are
    not modelled).  A statement that needs a particular sum to be unrounded
    says so with [binary64], which tells that the exact result is a number
    that binary64 holds.  [Math.pow] is transcendental, so [pitchToCoeff] is
    stated over the real numbers. *)

From Stdlib Require Import ZArith QArith Qround Qabs List Bool Lia Psatz String.
From Stdlib Require Import Sorted.
From Stdlib Require Ascii Decimal DecimalString DecimalZ DecimalPos.
From Stdlib Require Import Reals.
Import ListNotations.

Local Open Scope Z_scope.
Local Open Scope Q_scope.

(** ** JavaScript numbers *)

Module JS.

Inductive number : Type :=
| NaN
| PosInf
| NegInf
| Fin (q : Q).

Definition Qlt_bool (x y : Q) : bool := negb (Qle_bool y x).

(** Rounding toward zero (the integer part used by [%] and by ToInt32). *)
Definition Qtrunc (x : Q) : Z := Z.quot (Qnum x) (Zpos (Qden x)).

Definition is_finite (a : number) : bool :=
  match a with Fin _ => true | _ => false end.

Definition neg (a : number) : number :=
  match a with
  | NaN => NaN
  | PosInf => NegInf
  | NegInf => PosInf
  | Fin q => Fin (- q)
  end.

(** [a + b] *)
Definition add (a b : number) : number :=
  match a, b with
  | NaN, _ | _, NaN => NaN
  | PosInf, NegInf | NegInf, PosInf => NaN
  | PosInf, _ | _, PosInf => PosInf
  | NegInf, _ | _, NegInf => NegInf
  | Fin x, Fin y => Fin (x + y)
  end.

(** [a - b] *)
Definition sub (a b : number) : number := add a (neg b).

(** An infinity times the finite [q]: NaN for [q] zero, otherwise the
    infinity whose sign is that of the product ([positive] for +Infinity). *)
Definition inf_times (positive : bool) (q : Q) : number :=
  if Qeq_bool q 0 then NaN
  else if Bool.eqb positive (Qlt_bool 0 q) then PosInf else NegInf.

(** [a * b] *)
Definition mul (a b : number) : number :=
  match a, b with
  | NaN, _ | _, NaN => NaN
  | PosInf, PosInf | NegInf, NegInf => PosInf
  | PosInf, NegInf | NegInf, PosInf => NegInf
  | PosInf, Fin q | Fin q, PosInf => inf_times true q
  | NegInf, Fin q | Fin q, NegInf => inf_times false q
  | Fin x, Fin y => Fin (x * y)
  end.

(** [a / b]; a zero divisor is taken as +0. *)
Definition div (a b : number) : number :=
  match a, b with
  | NaN, _ | _, NaN => NaN
  | PosInf, PosInf | PosInf, NegInf | NegInf, PosInf | NegInf, NegInf => NaN
  | PosInf, Fin q => if Qlt_bool q 0 then NegInf else PosInf
  | NegInf, Fin q => if Qlt_bool q 0 then PosInf else NegInf
  | Fin _, PosInf | Fin _, NegInf => Fin 0
  | Fin x, Fin y =>
      if Qeq_bool y 0 then inf_times true x else Fin (x / y)
  end.

(** [a < b]: false as soon as one side is NaN. *)
Definition lt (a b : number) : bool :=
  match a, b with
  | NaN, _ | _, NaN => false
  | _, NegInf => false
  | NegInf, _ => true
  | PosInf, _ => false
  | Fin _, PosInf => true
  | Fin x, Fin y => Qlt_bool x y
  end.

(** [a > b] *)
Definition gt (a b : number) : bool := lt b a.

(** [a >= b]: false as soon as one side is NaN. *)
Definition ge (a b : number) : bool :=
  match a, b with
  | NaN, _ | _, NaN => false
  | _, _ => negb (lt a b)
  end.

(** [Math.floor(a)] *)
Definition floor (a : number) : number :=
  match a with
  | Fin q => Fin (inject_Z (Qfloor q))
  | _ => a
  end.

(** [a % b]: the remainder has the sign of the dividend. *)
Definition rem (a b : number) : number :=
  match a, b with
  | NaN, _ | _, NaN => NaN
  | PosInf, _ | NegInf, _ => NaN
  | Fin x, PosInf | Fin x, NegInf => Fin x
  | Fin x, Fin y =>
      if Qeq_bool y 0 then NaN
      else Fin (x - y * inject_Z (Qtrunc (x / y)))
  end.

(** [parseFloat(a.toFixed(2))]: the nearest multiple of 1/100, a tie going
    away from zero; values of magnitude 10^21 and more, and the special
    values, are printed and read back unchanged. *)
Definition round2 (q : Q) : Q :=
  let n := Qfloor (Qabs q * 100 + (1 # 2)) in
  Qred (if Qlt_bool q 0 then inject_Z (- n) / 100 else inject_Z n / 100).

Definition toFixed2 (a : number) : number :=
  match a with
  | Fin q =>
      if Qle_bool (inject_Z (10 ^ 21)) (Qabs q) then Fin q else Fin (round2 q)
  | _ => a
  end.

(** ToInt32: NaN and the infinities give 0; a finite value is truncated,
    reduced modulo 2^32 and read as a signed 32-bit integer. *)
Definition ToInt32 (a : number) : Z :=
  match a with
  | Fin q =>
      let int32bit := ((Qtrunc q) mod 2 ^ 32)%Z in
      if (2 ^ 31 <=? int32bit)%Z then (int32bit - 2 ^ 32)%Z else int32bit
  | _ => 0%Z
  end.

(** [a & b] on an already converted right operand. *)
Definition bitand (a : number) (mask : Z) : Z := Z.land (ToInt32 a) mask.

(** Equality of numbers up to the representation of a rational. *)
Definition eqv (a b : number) : Prop :=
  match a, b with
  | NaN, NaN | PosInf, PosInf | NegInf, NegInf => True
  | Fin x, Fin y => x == y
  | _, _ => False
  end.

End JS.

Import JS.

(** ** Data model ([Note], [ConverterOptions]) *)

Record Note : Type := mkNote {
  id : string;
  pitch : number;
  startTime : number;
  duration : number;
  coeff : number;
  restAfter : number
}.

Record ConverterOptions : Type := mkOptions {
  baseUnit : number;
  restDuration : number;
  totalPeriod : number;
  basePitch : number;
  baseCoeff : number
}.

(** ** The compiled expression

    [generateBytebeat] returns the text of a chain of conditional
    expressions.  Each piece of text it appends is one [segment]:
    - [Sound P N C]  is the text  [(t%P<N)?(t*C):]
    - [Silence P N]  is the text  [(t%P<N)?0:]
    and the whole result is either the text [0] ([Zero]) or the segments
    between [(] and [0)] ([Chain]). *)

Inductive segment : Type :=
| Sound (period threshold coefficient : number)
| Silence (period threshold : number).

Inductive expression : Type :=
| Zero
| Chain (segments : list segment).

Definition seg_period (s : segment) : number :=
  match s with Sound P _ _ | Silence P _ => P end.

Definition seg_threshold (s : segment) : number :=
  match s with Sound _ N _ | Silence _ N => N end.

(** The test [t%P<N] of a segment. *)
Definition seg_cond (s : segment) (t : number) : bool :=
  lt (rem t (seg_period s)) (seg_threshold s).

(** The branch taken when the test holds: [t*C] or [0]. *)
Definition seg_value (s : segment) (t : number) : number :=
  match s with
  | Sound _ _ C => mul t C
  | Silence _ _ => Fin 0
  end.

(** Evaluation of [c1 ? v1 : c2 ? v2 : ... : 0], the conditional operator
    being right associative. *)
Fixpoint evalChain (segs : list segment) (t : number) : number :=
  match segs with
  | [] => Fin 0
  | s :: rest => if seg_cond s t then seg_value s t else evalChain rest t
  end.

(** [new Function('t', `return ${expression};`)] applied to [t]. *)
Definition eval (e : expression) (t : number) : number :=
  match e with
  | Zero => Fin 0
  | Chain segs => evalChain segs t
  end.

(** ** [generateBytebeat] *)

(** [Array.prototype.forEach] with its index argument, threading the
    variables the callback assigns. *)
Fixpoint forEachFrom {A S : Type} (f : S -> A -> Z -> S)
         (index : Z) (l : list A) (s : S) : S :=
  match l with
  | [] => s
  | x :: rest => forEachFrom f (index + 1)%Z rest (f s x index)
  end.

Definition forEach {A S : Type} (f : S -> A -> Z -> S) (l : list A) (s : S) : S :=
  forEachFrom f 0%Z l s.

(** The two variables assigned by the callback. *)
Record Compiler : Type := mkCompiler {
  expr_text : list segment;
  accumulatedTime : number
}.

(** The body of the callback of [notes.forEach]; [len] is [notes.length]. *)
Definition emitNote (options : ConverterOptions) (len : Z)
           (st : Compiler) (note : Note) (index : Z) : Compiler :=
  let noteEndTime :=
    sub (add (accumulatedTime st) (mul (duration note) (baseUnit options)))
        (restAfter note) in
  let text1 :=
    expr_text st ++
    [Sound (totalPeriod options) (floor noteEndTime) (toFixed2 (coeff note))] in
  let time1 :=
    add (accumulatedTime st) (mul (duration note) (baseUnit options)) in
  if gt (restAfter note) (Fin 0) && (index <? len - 1)%Z
  then mkCompiler (text1 ++ [Silence (totalPeriod options) (floor time1)]) time1
  else mkCompiler text1 time1.

Definition generateBytebeat (notes : list Note) (options : ConverterOptions)
  : expression :=
  if (Z.of_nat (List.length notes) =? 0)%Z then Zero
  else
    let final :=
      forEach (emitNote options (Z.of_nat (List.length notes))) notes
              (mkCompiler [] (Fin 0)) in
    Chain (expr_text final).

(** The thresholds and the coefficients of an expression, in order. *)
Definition segments_of (e : expression) : list segment :=
  match e with Zero => [] | Chain segs => segs end.

Definition thresholds (e : expression) : list number :=
  map seg_threshold (segments_of e).

Definition coefficients (e : expression) : list number :=
  flat_map (fun s => match s with Sound _ _ C => [C] | Silence _ _ => [] end)
           (segments_of e).

(** ** [pitchToCoeff] *)

Definition pitchToCoeff (pitch basePitch baseCoeff : R) : R :=
  (baseCoeff * Rpower 2 ((pitch - basePitch) / 12))%R.

(** ** The synthesizer ([startPlayback], [onaudioprocess], [stopPlayback]) *)

Definition virtualSampleRate : number := Fin 8000.

(** What the audio callback closes over, and the cell [virtualTRef]. *)
Record Synth : Type := mkSynth {
  func : number -> number;
  ratio : number;
  period : number;
  virtualT : number
}.

(** [startPlayback]: compile the text, compute the ratio, reset the cell. *)
Definition startPlayback (e : expression) (options : ConverterOptions)
           (sampleRate : number) : Synth :=
  mkSynth (eval e) (div virtualSampleRate sampleRate) (totalPeriod options)
          (Fin 0).

(** [val & 0xFF] *)
Definition rawByte (val : number) : Z := bitand val 255.

(** [((val & 0xFF) / 128) - 1.0] *)
Definition sampleOf (val : number) : Q := inject_Z (rawByte val) / 128 - 1.

(** One iteration of the loop of [onaudioprocess]: the sample written to
    the output buffer and the synthesizer after the iteration. *)
Definition renderSample (s : Synth) : Q * Synth :=
  let val := func s (floor (virtualT s)) in
  let out := sampleOf val in
  let t1 := add (virtualT s) (ratio s) in
  let t2 := if ge t1 (period s) then Fin 0 else t1 in
  (out, mkSynth (func s) (ratio s) (period s) t2).

(** [onaudioprocess] on a buffer of [n] frames: the samples in order and
    the synthesizer at the end. *)
Fixpoint onaudioprocess (n : nat) (s : Synth) : list Q * Synth :=
  match n with
  | O => ([], s)
  | S k =>
      let (out, s1) := renderSample s in
      let (outs, s2) := onaudioprocess k s1 in
      (out :: outs, s2)
  end.

(** [stopPlayback]: the cell is reset. *)
Definition stopPlayback (s : Synth) : Synth :=
  mkSynth (func s) (ratio s) (period s) (Fin 0).

(** The time passed to the expression by the next iteration. *)
Definition nextT (s : Synth) : number := floor (virtualT s).

(** ** Reference definitions used by the statements *)

(** The advance of the time cursor caused by one note. *)
Definition advance (options : ConverterOptions) (note : Note) : number :=
  mul (duration note) (baseUnit options).

(** The time cursor after a list of notes. *)
Definition cursor_after (options : ConverterOptions) (cursor : number)
           (notes : list Note) : number :=
  fold_left (fun c note => add c (advance options note)) notes cursor.


(** The segments as the specification lists them, note by note: a sounding
    segment, then a silence segment when the rest is positive and the note
    is not the last one.  [shown] is the coefficient as it is written in the
    segment; [followed] tells that further notes come after [notes]. *)
Fixpoint spec_segments (shown : number -> number) (options : ConverterOptions)
         (followed : bool) (cursor : number) (notes : list Note)
  : list segment :=
  match notes with
  | [] => []
  | note :: rest =>
      let noteEnd := sub (add cursor (advance options note)) (restAfter note) in
      let cursor1 := add cursor (advance options note) in
      let last := match rest with [] => negb followed | _ :: _ => false end in
      Sound (totalPeriod options) (floor noteEnd) (shown (coeff note))
      :: (if gt (restAfter note) (Fin 0) && negb last
          then [Silence (totalPeriod options) (floor cursor1)]
          else [])
      ++ spec_segments shown options followed cursor1 rest
  end.

(** The position of the first segment whose test holds at [t]. *)
Fixpoint selected (segs : list segment) (t : number) : option nat :=
  match segs with
  | [] => None
  | s :: rest =>
      if seg_cond s t then Some O else option_map S (selected rest t)
  end.

(** First-match-wins evaluation with a default of zero. *)
Definition first_match (segs : list segment) (t : number) : number :=
  match find (fun s => seg_cond s t) segs with
  | Some s => seg_value s t
  | None => Fin 0
  end.

(** The synthesizer states that a playback session goes through. *)
Inductive session (start : Synth) : Synth -> Prop :=
| session_start : session start start
| session_render s : session start s -> session start (snd (renderSample s))
| session_stop s : session start s -> session start (stopPlayback s).


(** ** Concrete inputs used by the examples *)

Definition note_of (p d c r : number) : Note :=
  mkNote "note" p (Fin 0) d c r.

(** [DEFAULT_OPTIONS] of the application; the base coefficient is the
    binary64 number written [8.37]. *)
Definition DEFAULT_OPTIONS : ConverterOptions :=
  mkOptions (Fin 8000) (Fin 200) (Fin 64000) (Fin 60)
            (Fin (4711891110136381 # 562949953421312)).

(** One note whose coefficient 0.125 has three decimals. *)
Definition eighth_notes : list Note :=
  [note_of (Fin 60) (Fin 1) (Fin (1 # 8)) (Fin 0)].

Definition eighth_options : ConverterOptions :=
  mkOptions (Fin 1000) (Fin 0) (Fin 1000) (Fin 60) (Fin (1 # 8)).

(** The three notes of the end-to-end scenario of the specification. *)
Definition scenario_notes (id1 id2 id3 : string) (s1 s2 s3 : number)
  : list Note :=
  [mkNote id1 (Fin 60) s1 (Fin 1) (Fin 1) (Fin 0);
   mkNote id2 (Fin 72) s2 (Fin 1) (Fin 2) (Fin 0);
   mkNote id3 (Fin 60) s3 (Fin 1) (Fin 1) (Fin 0)].

Definition scenario_options (restDuration : number) : ConverterOptions :=
  mkOptions (Fin 1000) restDuration (Fin 3000) (Fin 60) (Fin 1).

(** A configuration with a zero period and a note without a finite
    coefficient. *)
Definition invalid_notes : list Note :=
  [note_of (Fin 60) (Fin 1) (Fin 1) (Fin 0);
   note_of (Fin 62) (Fin 1) NaN (Fin 0)].

Definition invalid_options : ConverterOptions :=
  mkOptions (Fin 1000) (Fin 0) (Fin 0) (Fin 60) (Fin 1).


Definition unit_options : ConverterOptions :=
  mkOptions (Fin 1) (Fin 0) (Fin 10) (Fin 60) (Fin 1).

(** A synthesizer for the period 3 whose ratio is 2: the accumulator goes
    0, 2 and would reach 4. *)
Definition coarse_synth : Synth :=
  mkSynth (eval Zero) (Fin 2) (Fin 3) (Fin 2).





(** Three notes of length 1; the rest of the middle one is 5. *)
Definition excess_first : Note := note_of (Fin 60) (Fin 1) (Fin 1) (Fin 0).
Definition excess_last : Note := note_of (Fin 67) (Fin 1) (Fin 3) (Fin 0).

(** ** Further reference definitions *)





(** The notes that are followed by a silence segment when the list is
    compiled: the notes with a positive rest, the last one left out. *)
Definition rests_compiled (notes : list Note) : list Note :=
  filter (fun note => gt (restAfter note) (Fin 0)) (removelast notes).

(** ** The notes that are compiled ([transposedNotes], [activeNotes]) *)

(** ToIntegerOrInfinity followed by the clamping of the [end] argument of
    [Array.prototype.slice] for an array of length [len]. *)
Definition slice_end (len : Z) (end_ : number) : Z :=
  match end_ with
  | NaN => 0
  | NegInf => 0
  | PosInf => len
  | Fin q =>
      let relativeEnd := Qtrunc q in
      if (relativeEnd <? 0)%Z then Z.max (len + relativeEnd) 0
      else Z.min relativeEnd len
  end.

(** [l.slice(0, end)] *)
Definition slice0 {A : Type} (l : list A) (end_ : number) : list A :=
  firstn (Z.to_nat (slice_end (Z.of_nat (List.length l)) end_)) l.

Section Application.

(** [Math.pow], whose results the language leaves to the implementation. *)
Variable Math_pow : number -> number -> number.

(** [pitchToCoeff] on JavaScript numbers. *)
Definition pitchToCoeff_number (pitch basePitch baseCoeff : number) : number :=
  mul baseCoeff (Math_pow (Fin 2) (div (sub pitch basePitch) (Fin 12))).

(** The callback of [notes.map] in [transposedNotes]. *)
Definition transposeNote (transpose : number) (options : ConverterOptions)
           (note : Note) : Note :=
  let newPitch := add (pitch note) transpose in
  mkNote (id note) newPitch (startTime note) (duration note)
         (pitchToCoeff_number newPitch (basePitch options) (baseCoeff options))
         (restAfter note).

Definition transposedNotes (notes : list Note) (transpose : number)
           (options : ConverterOptions) : list Note :=
  map (transposeNote transpose options) notes.

Definition activeNotes (notes : list Note) (transpose noteLimit : number)
           (options : ConverterOptions) : list Note :=
  slice0 (transposedNotes notes transpose options) noteLimit.

(** The expression set by the effect that follows every change of the
    notes, the transposition, the limit or the options. *)
Definition appExpression (notes : list Note) (transpose noteLimit : number)
           (options : ConverterOptions) : expression :=
  generateBytebeat (activeNotes notes transpose noteLimit options) options.

End Application.

(** What a segment says about time: its kind, period and threshold. *)
Definition seg_timing (s : segment) : bool * number * number :=
  match s with
  | Sound P N _ => (true, P, N)
  | Silence P N => (false, P, N)
  end.

(** [updateProgress]: the fraction of the period shown by the progress bar. *)
Definition playProgress (s : Synth) (options : ConverterOptions) : number :=
  div (virtualT s) (totalPeriod options).

(** ** The names of the notes ([MIDI_PITCH_MAP], [getNoteName]) *)

(** The decimal text of an integer. *)
Definition show_Z (z : Z) : string :=
  DecimalString.NilZero.string_of_int (Z.to_int z).

(** The text of a number in a template: defined here for the special values
    and for the integers up to 2^53 in magnitude, whose text is their
    decimal notation; the text of the other numbers depends on their binary64
    digits. *)
Definition ToString (a : number) : option string :=
  match a with
  | NaN => Some "NaN"%string
  | PosInf => Some "Infinity"%string
  | NegInf => Some "-Infinity"%string
  | Fin q =>
      if Qeq_bool q (inject_Z (Qfloor q)) &&
         Qle_bool (Qabs q) (inject_Z (2 ^ 53))
      then Some (show_Z (Qfloor q))
      else None
  end.

Definition MIDI_PITCH_MAP : list (Z * string) :=
  [(0, "C"); (1, "C#"); (2, "D"); (3, "D#"); (4, "E"); (5, "F");
   (6, "F#"); (7, "G"); (8, "G#"); (9, "A"); (10, "A#"); (11, "B")]%Z%string.

(** The lookup [MIDI_PITCH_MAP[key]]: the key is turned into a property
    name, so only a key that is one of the integers of the table is found;
    the result is [undefined] ([None]) otherwise. *)
Definition MIDI_PITCH_MAP_get (key : number) : option string :=
  match key with
  | Fin q =>
      if Qeq_bool q (inject_Z (Qfloor q))
      then option_map snd
             (find (fun entry => (fst entry =? Qfloor q)%Z) MIDI_PITCH_MAP)
      else None
  | _ => None
  end.

(** [`${name}${octave}`], the text of [undefined] being ["undefined"]. *)
Definition getNoteName (pitch : number) : option string :=
  let octave := sub (floor (div pitch (Fin 12))) (Fin 1) in
  let name := MIDI_PITCH_MAP_get (rem pitch (Fin 12)) in
  match ToString octave with
  | Some octave_text =>
      Some ((match name with Some s => s | None => "undefined" end)
              ++ octave_text)%string
  | None => None
  end.

(** The MIDI pitches, 0 to 127. *)
Definition midi_pitches : list Z := map Z.of_nat (seq 0 128).

(** Whether two optional texts are the same text. *)
Definition same_text (a b : option string) : bool :=
  match a, b with
  | Some x, Some y => String.eqb x y
  | None, None => true
  | _, _ => false
  end.

(** ** [parseMidiFile] *)

Module Midi.

(** What the parser reads of a note and of a track decoded by the MIDI
    library. *)
Record note : Type := mkNote {
  midi : number;
  time : number;
  duration : number
}.

Record track : Type := mkTrack {
  notes : list note
}.

End Midi.

(** [Array.prototype.map] with its index argument. *)
Fixpoint mapFrom {A B : Type} (f : A -> Z -> B) (index : Z) (l : list A)
  : list B :=
  match l with
  | [] => []
  | x :: rest => f x index :: mapFrom f (index + 1)%Z rest
  end.

Section Parser.

Variable Math_pow : number -> number -> number.

(** [Date.now()] as the callback reads it for the note of each index. *)
Variable Date_now : Z -> Z.

(** The callback of [track.notes.map]. *)
Definition parsedNote (options : ConverterOptions) (n : Midi.note) (i : Z)
  : Note :=
  mkNote ("note-" ++ show_Z i ++ "-" ++ show_Z (Date_now i))%string
         (Midi.midi n) (Midi.time n) (Midi.duration n)
         (pitchToCoeff_number Math_pow (Midi.midi n)
                              (basePitch options) (baseCoeff options))
         (restDuration options).

(** [parseMidiFile] on the tracks of the decoded file. *)
Definition parseMidiFile (tracks : list Midi.track) (options : ConverterOptions)
  : list Note :=
  let found :=
    find (fun t => (0 <? Z.of_nat (List.length (Midi.notes t)))%Z) tracks in
  let track :=
    match found with Some t => Some t | None => nth_error tracks 0 end in
  match track with
  | None => []
  | Some t => mapFrom (parsedNote options) 0%Z (Midi.notes t)
  end.

End Parser.

(** The character [-], of code 45. *)
Definition dash : Ascii.ascii := Ascii.ascii_of_nat 45.

(** Texts without the character [-]. *)
Fixpoint dash_free (s : string) : bool :=
  match s with
  | EmptyString => true
  | String c rest => negb (Ascii.eqb c dash) && dash_free rest
  end.

(** * Properties *)

(** ** Numbers *)

Section NumberFacts.

Lemma Qlt_bool_iff (x y : Q) : Qlt_bool x y = true <-> x < y.
Proof.
  unfold Qlt_bool. rewrite negb_true_iff. split; intro H.
  - apply Qnot_le_lt. intro Hle. apply Qle_bool_iff in Hle. congruence.
  - destruct (Qle_bool y x) eqn:E; [|reflexivity].
    apply Qle_bool_iff in E. exfalso. apply (Qlt_not_le _ _ H E).
Qed.

Lemma Qlt_bool_false_iff (x y : Q) : Qlt_bool x y = false <-> y <= x.
Proof.
  unfold Qlt_bool. rewrite negb_false_iff. apply Qle_bool_iff.
Qed.



Lemma ge_Fin (x y : Q) : ge (Fin x) (Fin y) = true <-> y <= x.
Proof. simpl. rewrite negb_true_iff. apply Qlt_bool_false_iff. Qed.

Lemma ge_Fin_false (x y : Q) : ge (Fin x) (Fin y) = false <-> x < y.
Proof. simpl. rewrite negb_false_iff. apply Qlt_bool_iff. Qed.

Lemma Qtrunc_inject_Z (z : Z) : Qtrunc (inject_Z z) = z.
Proof. unfold Qtrunc. simpl. apply Z.quot_1_r. Qed.

Lemma Qtrunc_small (q : Q) : 0 <= q -> q < 1 -> Qtrunc q = 0%Z.
Proof.
  destruct q as [n d]. unfold Qle, Qlt, Qtrunc. simpl. intros H0 H1.
  apply Z.quot_small. lia.
Qed.

(** Within one period the remainder is the time itself. *)
Lemma rem_small (x y : Q) :
  0 <= x -> x < y -> exists r, rem (Fin x) (Fin y) = Fin r /\ r == x.
Proof.
  intros H0 H1. simpl.
  assert (Hy : 0 < y) by (eapply Qle_lt_trans; eauto).
  destruct (Qeq_bool y 0) eqn:E.
  - apply Qeq_bool_iff in E. rewrite E in Hy. exfalso. apply (Qlt_irrefl 0 Hy).
  - eexists. split; [reflexivity|].
    rewrite Qtrunc_small.
    + ring.
    + apply Qle_shift_div_l; [exact Hy|]. rewrite Qmult_0_l. exact H0.
    + apply Qlt_shift_div_r; [exact Hy|]. rewrite Qmult_1_l. exact H1.
Qed.

Lemma lt_eqv_l (a b c : number) : eqv a b -> lt a c = lt b c.
Proof.
  destruct a, b; simpl; try tauto; intros H; destruct c; try reflexivity.
  simpl. unfold Qlt_bool. f_equal.
  destruct (Qle_bool q1 q) eqn:E1, (Qle_bool q1 q0) eqn:E2; try reflexivity.
  - apply Qle_bool_iff in E1. rewrite H in E1. apply Qle_bool_iff in E1. congruence.
  - apply Qle_bool_iff in E2. rewrite <- H in E2. apply Qle_bool_iff in E2. congruence.
Qed.


End NumberFacts.

(** ** The sample conversion *)

Section SampleFacts.




End SampleFacts.


(** ** The pitch coefficient *)

Section PitchFacts.

Lemma pitchToCoeff_same (p c : R) : pitchToCoeff p p c = c.
Proof.
  unfold pitchToCoeff. replace ((p - p) / 12)%R with 0%R by lra.
  rewrite Rpower_O by lra. lra.
Qed.

Lemma pitchToCoeff_octave (p c : R) : pitchToCoeff (p + 12) p c = (2 * c)%R.
Proof.
  unfold pitchToCoeff. replace ((p + 12 - p) / 12)%R with 1%R by lra.
  rewrite Rpower_1 by lra. lra.
Qed.

End PitchFacts.

(** C7.  Transposing by zero semitones leaves the base coefficient
    unchanged and one octave up doubles it, [pitchToCoeff] being
    [baseCoeff * 2^((pitch - basePitch)/12)]. *)
Theorem C7_pitchToCoeff_identity_and_octave :
  forall p c : R,
    pitchToCoeff p p c = c /\
    pitchToCoeff (p + 12) p c = (2 * c)%R /\
    (forall pitch basePitch baseCoeff : R,
        pitchToCoeff pitch basePitch baseCoeff =
        (baseCoeff * Rpower 2 ((pitch - basePitch) / 12))%R).
Proof.
  intros p c. split; [apply pitchToCoeff_same|].
  split; [apply pitchToCoeff_octave|]. reflexivity.
Qed.

(** ** The compiler *)

Section CompilerFacts.

Variable options : ConverterOptions.

(** The loop of [generateBytebeat] appends exactly the segments of the
    specification, with the coefficient written with two decimals. *)
Lemma forEachFrom_emitNote (notes : list Note) :
  forall (index len : Z) (st : Compiler),
    (index + Z.of_nat (List.length notes) = len)%Z ->
    forEachFrom (emitNote options len) index notes st =
    mkCompiler
      (expr_text st ++
       spec_segments toFixed2 options false (accumulatedTime st) notes)
      (cursor_after options (accumulatedTime st) notes).
Proof.
  induction notes as [|note rest IH]; intros index len st Hlen.
  - simpl. rewrite app_nil_r. destruct st; reflexivity.
  - cbn [forEachFrom]. rewrite IH by (cbn [List.length] in Hlen; lia).
    cbn [spec_segments cursor_after fold_left].
    unfold emitNote, advance.
    assert (Hlast : (index <? len - 1)%Z =
                    negb (match rest with [] => negb false | _ :: _ => false end)).
    { destruct rest; cbn [List.length] in Hlen; simpl negb.
      - apply Z.ltb_ge. lia.
      - apply Z.ltb_lt. lia. }
    rewrite Hlast.
    destruct (gt (restAfter note) (Fin 0) && _); cbn [expr_text accumulatedTime];
      f_equal; rewrite <- ?app_assoc; reflexivity.
Qed.

Lemma generateBytebeat_nonempty (notes : list Note) :
  notes <> [] ->
  generateBytebeat notes options =
  Chain (spec_segments toFixed2 options false (Fin 0) notes).
Proof.
  intros Hne. unfold generateBytebeat.
  destruct notes as [|n rest]; [congruence|].
  replace (Z.of_nat (List.length (n :: rest)) =? 0)%Z with false
    by (symmetry; apply Z.eqb_neq; cbn [List.length]; lia).
  unfold forEach. rewrite forEachFrom_emitNote by lia. reflexivity.
Qed.

Lemma evalChain_first_match (segs : list segment) (t : number) :
  evalChain segs t = first_match segs t.
Proof.
  unfold first_match. induction segs as [|s rest IH]; simpl; [reflexivity|].
  destruct (seg_cond s t); [reflexivity|exact IH].
Qed.

Lemma evalChain_selected (segs : list segment) (t : number) :
  evalChain segs t =
  match selected segs t with
  | Some k => seg_value (nth k segs (Silence NaN NaN)) t
  | None => Fin 0
  end.
Proof.
  induction segs as [|s rest IH]; simpl; [reflexivity|].
  destruct (seg_cond s t); [reflexivity|].
  rewrite IH. destruct (selected rest t); reflexivity.
Qed.


End CompilerFacts.

(** C1, as stated, at a note whose coefficient is 0.125: the specification
    has the sounding segment guard the value [t*coeff], but the segment that
    is compiled multiplies by 0.13, so at [t = 800] the expression yields 104
    and not 100. *)
Lemma C1_counterexample_rounded_coefficient :
  eighth_notes <> [] /\
  generateBytebeat eighth_notes eighth_options =
    Chain [Sound (Fin 1000) (Fin 1000) (Fin (13 # 100))] /\
  generateBytebeat eighth_notes eighth_options <>
    Chain (spec_segments (fun c => c) eighth_options false (Fin 0) eighth_notes) /\
  eqv (eval (generateBytebeat eighth_notes eighth_options) (Fin 800)) (Fin 104) /\
  eqv (mul (Fin 800) (Fin (1 # 8))) (Fin 100) /\
  ~ eqv (eval (generateBytebeat eighth_notes eighth_options) (Fin 800))
        (mul (Fin 800) (Fin (1 # 8))).
Proof.
  split; [discriminate|].
  split; [reflexivity|].
  split; [vm_compute; discriminate|].
  split; [reflexivity|].
  split; [reflexivity|].
  vm_compute. discriminate.
Qed.

(** C1 (amended).  For a non-empty note list the compiler walks the notes in
    array order with a time cursor starting at 0; each note contributes a
    sounding segment with threshold [floor(cursor + duration*baseUnit -
    restAfter)] guarding [t*c], where [c] is the coefficient rounded to two
    decimals, then the cursor advances by [duration*baseUnit] and a silence
    segment with threshold [floor(cursor)] follows exactly when
    [restAfter > 0] and the note is not the last; evaluation takes the first
    segment whose test holds and yields zero when none does. *)
Theorem C1_compiler_segments :
  forall (notes : list Note) (options : ConverterOptions),
    notes <> [] ->
    generateBytebeat notes options =
      Chain (spec_segments toFixed2 options false (Fin 0) notes) /\
    (forall t : number,
        eval (generateBytebeat notes options) t =
        first_match (spec_segments toFixed2 options false (Fin 0) notes) t).
Proof.
  intros notes options Hne.
  rewrite (generateBytebeat_nonempty options notes Hne).
  split; [reflexivity|].
  intros t. apply evalChain_first_match.
Qed.

Lemma C1_compiler_segments_witness :
  generateBytebeat eighth_notes eighth_options =
    Chain (spec_segments toFixed2 eighth_options false (Fin 0) eighth_notes) /\
  (forall t : number,
      eval (generateBytebeat eighth_notes eighth_options) t =
      first_match
        (spec_segments toFixed2 eighth_options false (Fin 0) eighth_notes) t).
Proof.
  apply (C1_compiler_segments eighth_notes eighth_options). discriminate.
Defined.

(** C8.  The empty note list compiles, without error, to the expression [0],
    which evaluates to 0 at every time. *)
Theorem C8_empty_notes_always_zero :
  forall (options : ConverterOptions) (t : number),
    generateBytebeat [] options = Zero /\
    eval (generateBytebeat [] options) t = Fin 0.
Proof.
  intros options t. split; reflexivity.
Qed.

(** C9.  The end-to-end scenario: the three notes compile to thresholds
    1000, 2000, 3000 with coefficients 1, 2, 1 (the coefficients that
    [pitchToCoeff] gives pitches 60 and 72 over base pitch 60 and base
    coefficient 1); at [t = 500] the value is 500, the byte 244 and the
    sample 244/128 - 1 = 0.90625; at [t = 1500] the value is 3000, the byte
    184 and the sample 0.4375. *)
Theorem C9_end_to_end_scenario :
  forall (id1 id2 id3 : string) (s1 s2 s3 restDuration : number),
    let e := generateBytebeat (scenario_notes id1 id2 id3 s1 s2 s3)
                              (scenario_options restDuration) in
    pitchToCoeff (Q2R 60) (Q2R 60) (Q2R 1) = Q2R 1 /\
    pitchToCoeff (Q2R 72) (Q2R 60) (Q2R 1) = Q2R 2 /\
    thresholds e = [Fin 1000; Fin 2000; Fin 3000] /\
    coefficients e = [Fin 1; Fin 2; Fin 1] /\
    eval e (Fin 500) = Fin 500 /\
    rawByte (eval e (Fin 500)) = 244%Z /\
    sampleOf (eval e (Fin 500)) == 244 / 128 - 1 /\
    sampleOf (eval e (Fin 500)) == 90625 # 100000 /\
    eval e (Fin 1500) = Fin 3000 /\
    rawByte (eval e (Fin 1500)) = 184%Z /\
    sampleOf (eval e (Fin 1500)) == 4375 # 10000.
Proof.
  intros id1 id2 id3 s1 s2 s3 restDuration e.
  split; [apply pitchToCoeff_same|].
  split.
  { replace (Q2R 72) with (Q2R 60 + 12)%R by (unfold Q2R; simpl; lra).
    rewrite pitchToCoeff_octave. unfold Q2R; simpl; lra. }
  repeat split; reflexivity.
Qed.

Section SegmentShape.

Variable options : ConverterOptions.

Lemma spec_segments_period (shown : number -> number) (notes : list Note) :
  forall (followed : bool) (cursor : number),
    Forall (fun s => seg_period s = totalPeriod options)
           (spec_segments shown options followed cursor notes).
Proof.
  induction notes as [|note rest IH]; intros followed cursor; simpl.
  - constructor.
  - constructor; [reflexivity|].
    apply Forall_app. split; [|apply IH].
    match goal with |- context [if ?b then _ else _] => destruct b end;
      repeat constructor.
Qed.

Lemma spec_segments_coefficients (shown : number -> number) (notes : list Note) :
  forall (followed : bool) (cursor : number),
    coefficients (Chain (spec_segments shown options followed cursor notes)) =
    map (fun note => shown (coeff note)) notes.
Proof.
  unfold coefficients. cbn [segments_of].
  induction notes as [|note rest IH]; intros followed cursor; simpl.
  - reflexivity.
  - f_equal. rewrite flat_map_app, IH.
    match goal with |- context [if ?b then _ else _] => destruct b end;
      reflexivity.
Qed.

End SegmentShape.

(** C4, as stated, at a configuration whose period is zero and whose second
    note has the coefficient NaN: nothing is rejected, both values are
    written into the expression that is returned. *)
Lemma C4_counterexample_nothing_rejected :
  gt (totalPeriod invalid_options) (Fin 0) = false /\
  Exists (fun note => is_finite (coeff note) = false) invalid_notes /\
  generateBytebeat invalid_notes invalid_options =
    Chain [Sound (Fin 0) (Fin 1000) (Fin 1); Sound (Fin 0) (Fin 2000) NaN].
Proof.
  split; [reflexivity|]. split; [|reflexivity].
  apply Exists_cons_tl, Exists_cons_hd. reflexivity.
Qed.

(** C4 (amended).  Compilation validates nothing and always returns an
    expression: [0] for the empty list and otherwise the full chain, every
    segment of which carries [totalPeriod] as given (positive or not) and
    whose coefficients are those of the notes written with two decimals, a
    coefficient that is NaN or infinite being written unchanged. *)
Theorem C4_compilation_never_rejects :
  forall (notes : list Note) (options : ConverterOptions),
    generateBytebeat notes options =
      match notes with
      | [] => Zero
      | _ :: _ => Chain (spec_segments toFixed2 options false (Fin 0) notes)
      end /\
    Forall (fun s => seg_period s = totalPeriod options)
           (segments_of (generateBytebeat notes options)) /\
    coefficients (generateBytebeat notes options) =
      map (fun note => toFixed2 (coeff note)) notes /\
    toFixed2 NaN = NaN /\ toFixed2 PosInf = PosInf /\ toFixed2 NegInf = NegInf.
Proof.
  intros notes options. destruct notes as [|n rest].
  - repeat split; constructor.
  - rewrite generateBytebeat_nonempty by discriminate.
    split; [reflexivity|]. split; [|split].
    + apply spec_segments_period.
    + apply spec_segments_coefficients.
    + repeat split.
Qed.

Section Thresholds.

Variable options : ConverterOptions.








End Thresholds.




(** ** The synthesizer *)

Section SynthFacts.

Lemma renderSample_fields (s : Synth) :
  func (snd (renderSample s)) = func s /\
  ratio (snd (renderSample s)) = ratio s /\
  period (snd (renderSample s)) = period s.
Proof. repeat split. Qed.

Lemma renderSample_virtualT (s : Synth) :
  virtualT (snd (renderSample s)) =
  if ge (add (virtualT s) (ratio s)) (period s) then Fin 0
  else add (virtualT s) (ratio s).
Proof. reflexivity. Qed.

Lemma onaudioprocess_unfold (n : nat) (s : Synth) :
  onaudioprocess (S n) s =
  (fst (renderSample s) :: fst (onaudioprocess n (snd (renderSample s))),
   snd (onaudioprocess n (snd (renderSample s)))).
Proof.
  cbn [onaudioprocess]. destruct (renderSample s) as [out s1]. cbn [fst snd].
  destruct (onaudioprocess n s1); reflexivity.
Qed.

(** One more frame is one more iteration after the shorter buffer. *)
Lemma onaudioprocess_succ (n : nat) :
  forall s : Synth,
    snd (onaudioprocess (S n) s) = snd (renderSample (snd (onaudioprocess n s))).
Proof.
  induction n as [|n IH]; intros s.
  - reflexivity.
  - rewrite (onaudioprocess_unfold (S n) s). cbn [snd]. rewrite IH.
    rewrite (onaudioprocess_unfold n s). reflexivity.
Qed.

Lemma onaudioprocess_session (n : nat) (s : Synth) :
  session s (snd (onaudioprocess n s)).
Proof.
  induction n as [|n IH].
  - constructor.
  - rewrite onaudioprocess_succ. constructor. exact IH.
Qed.

Lemma session_fields (start s : Synth) :
  session start s ->
  func s = func start /\ ratio s = ratio start /\ period s = period start.
Proof.
  induction 1 as [|s _ IH|s _ IH]; [repeat split| |]; exact IH.
Qed.

(** The accumulator stays in [0, p) along a session. *)
Lemma session_accumulator (start s : Synth) (p r : Q) :
  period start = Fin p -> 0 < p ->
  ratio start = Fin r -> 0 < r ->
  virtualT start = Fin 0 ->
  session start s ->
  exists v, virtualT s = Fin v /\ 0 <= v /\ v < p.
Proof.
  intros Hp Hp0 Hr Hr0 H0 Hs.
  induction Hs as [|s Hs [v [Hv [Hv0 Hvp]]]|s Hs _].
  - exists 0. rewrite H0. repeat split; [apply Qle_refl|exact Hp0].
  - destruct (session_fields _ _ Hs) as [_ [Hrs Hps]].
    rewrite renderSample_virtualT, Hv, Hrs, Hps, Hr, Hp. cbn [add].
    destruct (ge (Fin (v + r)) (Fin p)) eqn:E.
    + exists 0. repeat split; [apply Qle_refl|exact Hp0].
    + apply ge_Fin_false in E. exists (v + r). repeat split; [|exact E].
      apply Qle_trans with (v + 0).
      * rewrite Qplus_0_r. exact Hv0.
      * apply Qplus_le_r. apply Qlt_le_weak. exact Hr0.
  - exists 0. repeat split; [apply Qle_refl|exact Hp0].
Qed.

(** From a reset accumulator the iterations add the ratio as long as the
    sum stays below the period. *)
Lemma accumulator_ramp (start : Synth) (r p : Q) :
  ratio start = Fin r -> period start = Fin p -> virtualT start = Fin 0 ->
  0 <= r ->
  forall k : nat,
    inject_Z (Z.of_nat k) * r < p ->
    exists v, virtualT (snd (onaudioprocess k start)) = Fin v /\
              v == inject_Z (Z.of_nat k) * r.
Proof.
  intros Hr Hp H0 Hr0. induction k as [|k IH]; intros Hk.
  - exists 0. split; [exact H0|]. cbn. ring.
  - rewrite Nat2Z.inj_succ in *. unfold Z.succ in *. rewrite inject_Z_plus in *.
    change (inject_Z 1) with 1 in *.
    assert (Hk' : inject_Z (Z.of_nat k) * r < p) by nra.
    destruct (IH Hk') as [v [Hv Hvk]].
    exists (v + r). split; [|rewrite Hvk; ring].
    destruct (session_fields _ _ (onaudioprocess_session k start)) as [_ [Hrs Hps]].
    rewrite onaudioprocess_succ, renderSample_virtualT, Hv, Hrs, Hps, Hr, Hp.
    cbn [add].
    replace (ge (Fin (v + r)) (Fin p)) with false; [reflexivity|].
    symmetry. apply ge_Fin_false. nra.
Qed.

(** The first iteration whose sum reaches the period ends the cycle at 0,
    whatever the excess [(k+1)*r - p]. *)
Lemma accumulator_wrap (start : Synth) (r p : Q) (k : nat) :
  ratio start = Fin r -> period start = Fin p -> virtualT start = Fin 0 ->
  0 <= r ->
  inject_Z (Z.of_nat k) * r < p ->
  p <= inject_Z (Z.of_nat (S k)) * r ->
  virtualT (snd (onaudioprocess (S k) start)) = Fin 0.
Proof.
  intros Hr Hp H0 Hr0 Hk HSk.
  destruct (accumulator_ramp start r p Hr Hp H0 Hr0 k Hk) as [v [Hv Hvk]].
  destruct (session_fields _ _ (onaudioprocess_session k start)) as [_ [Hrs Hps]].
  rewrite onaudioprocess_succ, renderSample_virtualT, Hv, Hrs, Hps, Hr, Hp.
  cbn [add].
  replace (ge (Fin (v + r)) (Fin p)) with true; [reflexivity|].
  symmetry. apply ge_Fin.
  rewrite Nat2Z.inj_succ in HSk. unfold Z.succ in HSk.
  rewrite inject_Z_plus in HSk. change (inject_Z 1) with 1 in HSk. nra.
Qed.

End SynthFacts.

(** C2.  After any number of iterations, when the accumulator plus the ratio
    reaches or exceeds the period, the next iteration leaves the accumulator
    at exactly 0, so the next time evaluated is 0; the amount by which the
    sum exceeded the period, when there is one, is not kept. *)
Theorem C2_hard_reset_discards_remainder :
  forall (start : Synth) (n : nat),
    ge (add (virtualT (snd (onaudioprocess n start))) (ratio start))
       (period start) = true ->
    virtualT (snd (onaudioprocess (S n) start)) = Fin 0 /\
    nextT (snd (onaudioprocess (S n) start)) = Fin 0 /\
    (forall x : Q,
        sub (add (virtualT (snd (onaudioprocess n start))) (ratio start))
            (period start) = Fin x ->
        ~ x == 0 ->
        ~ eqv (virtualT (snd (onaudioprocess (S n) start))) (Fin x)).
Proof.
  intros start n Hge.
  destruct (session_fields _ _ (onaudioprocess_session n start)) as [_ [Hr Hp]].
  assert (H0 : virtualT (snd (onaudioprocess (S n) start)) = Fin 0).
  { rewrite onaudioprocess_succ, renderSample_virtualT, Hr, Hp, Hge. reflexivity. }
  split; [exact H0|]. split.
  - unfold nextT. rewrite H0. reflexivity.
  - intros x _ Hx. rewrite H0. cbn [eqv]. intros H. apply Hx. symmetry. exact H.
Qed.

Lemma C2_hard_reset_discards_remainder_witness :
  virtualT (snd (onaudioprocess 1 coarse_synth)) = Fin 0 /\
  nextT (snd (onaudioprocess 1 coarse_synth)) = Fin 0 /\
  (forall x : Q,
      sub (add (virtualT (snd (onaudioprocess 0 coarse_synth))) (ratio coarse_synth))
          (period coarse_synth) = Fin x ->
      ~ x == 0 ->
      ~ eqv (virtualT (snd (onaudioprocess 1 coarse_synth))) (Fin x)).
Proof.
  apply (C2_hard_reset_discards_remainder coarse_synth 0). reflexivity.
Defined.

(** With period 3 and ratio 2 the sum 2 + 2 exceeds the period by 1; a
    reduction modulo the period would continue from 1, the synthesizer
    continues from 0. *)
Example coarse_synth_drift :
  eqv (rem (add (virtualT coarse_synth) (ratio coarse_synth)) (period coarse_synth))
      (Fin 1) /\
  virtualT (snd (renderSample coarse_synth)) = Fin 0.
Proof. split; reflexivity. Qed.

(** C10.  With a positive period and a positive ratio the accumulator is in
    [0, totalPeriod) at the start and after every iteration and every stop,
    so each time passed to the expression is an integer in [0, totalPeriod)
    and [t % totalPeriod] is [t] in the test of every segment. *)
Theorem C10_accumulator_within_period :
  forall (notes : list Note) (options : ConverterOptions) (sampleRate : number)
         (p r : Q),
    totalPeriod options = Fin p -> 0 < p ->
    div virtualSampleRate sampleRate = Fin r -> 0 < r ->
    forall s : Synth,
      session (startPlayback (generateBytebeat notes options) options sampleRate) s ->
      (exists v, virtualT s = Fin v /\ 0 <= v /\ v < p) /\
      (exists z, nextT s = Fin (inject_Z z) /\ (0 <= z)%Z /\ inject_Z z < p) /\
      eqv (rem (nextT s) (totalPeriod options)) (nextT s) /\
      (forall seg,
          In seg (segments_of (generateBytebeat notes options)) ->
          seg_cond seg (nextT s) = lt (nextT s) (seg_threshold seg)).
Proof.
  intros notes options sampleRate p r Hp Hp0 Hr Hr0 s Hs.
  destruct (session_accumulator
              (startPlayback (generateBytebeat notes options) options sampleRate)
              s p r Hp Hp0 Hr Hr0 eq_refl Hs)
    as [v [Hv [Hv0 Hvp]]].
  assert (Hz0 : (0 <= Qfloor v)%Z).
  { rewrite <- (Qfloor_Z 0). apply Qfloor_resp_le. exact Hv0. }
  assert (Hzp : inject_Z (Qfloor v) < p).
  { apply Qle_lt_trans with v; [apply Qfloor_le|exact Hvp]. }
  assert (Hq0 : 0 <= inject_Z (Qfloor v)).
  { change 0 with (inject_Z 0). rewrite <- Zle_Qle. exact Hz0. }
  assert (Hrem : eqv (rem (nextT s) (totalPeriod options)) (nextT s)).
  { unfold nextT. rewrite Hv, Hp. cbn [floor].
    destruct (rem_small _ _ Hq0 Hzp) as [x [-> Hx]]. exact Hx. }
  split; [exists v; auto|].
  split; [exists (Qfloor v); unfold nextT; rewrite Hv; auto|].
  split; [exact Hrem|].
  intros seg Hin. unfold seg_cond.
  assert (Hper : seg_period seg = totalPeriod options).
  { destruct notes as [|n rest]; [destruct Hin|].
    rewrite generateBytebeat_nonempty in Hin by discriminate.
    pose proof (spec_segments_period options toFixed2 (n :: rest) false (Fin 0)) as Hall.
    rewrite Forall_forall in Hall. apply Hall. exact Hin. }
  rewrite Hper. apply lt_eqv_l. exact Hrem.
Qed.

Lemma C10_accumulator_within_period_witness :
  exists v : Q,
    virtualT (snd (onaudioprocess 3
      (startPlayback (generateBytebeat eighth_notes DEFAULT_OPTIONS)
                     DEFAULT_OPTIONS (Fin 44100)))) = Fin v /\
    0 <= v /\ v < 64000.
Proof.
  apply (C10_accumulator_within_period eighth_notes DEFAULT_OPTIONS (Fin 44100)
           64000 (8000 / 44100) eq_refl eq_refl eq_refl eq_refl).
  apply onaudioprocess_session.
Defined.

(** ** Rests longer than the note *)

Section TruncFacts.

Lemma Qtrunc_nonneg (x : Q) : 0 <= x -> Qtrunc x = Qfloor x.
Proof.
  destruct x as [n d]. unfold Qle, Qtrunc, Qfloor. simpl. intros H.
  apply Z.quot_div_nonneg; lia.
Qed.






End TruncFacts.

Section ExcessRest.

Variable options : ConverterOptions.
Variable shown : number -> number.


(** The segments of a list of notes followed by further notes. *)
Lemma spec_segments_app (l1 l2 : list Note) :
  forall (followed : bool) (c : number),
    spec_segments shown options followed c (l1 ++ l2) =
    spec_segments shown options
      (match l2 with [] => followed | _ :: _ => true end) c l1 ++
    spec_segments shown options followed (cursor_after options c l1) l2.
Proof.
  induction l1 as [|n rest IH]; intros followed c.
  - reflexivity.
  - cbn [app spec_segments]. rewrite IH.
    cbn [cursor_after fold_left]. fold (cursor_after options).
    f_equal. rewrite <- app_assoc. f_equal.
    destruct rest; destruct l2; reflexivity.
Qed.







End ExcessRest.




(** * Further properties of the compiler *)

Section Windows.

Variable options : ConverterOptions.



End Windows.







Section Shape.

Variable options : ConverterOptions.

Lemma spec_segments_length (shown : number -> number) (notes : list Note) :
  forall (c : number),
    List.length (spec_segments shown options false c notes) =
    (List.length notes + List.length (rests_compiled notes))%nat.
Proof.
  unfold rests_compiled.
  induction notes as [|note rest IH]; intros c; [reflexivity|].
  cbn [spec_segments List.length]. rewrite length_app, IH.
  destruct rest as [|n1 rest1].
  - cbn. rewrite andb_false_r. reflexivity.
  - cbn [negb]. rewrite andb_true_r.
    change (removelast (note :: n1 :: rest1))
      with (note :: removelast (n1 :: rest1)).
    cbn [filter]. destruct (gt (restAfter note) (Fin 0)); cbn [List.length]; lia.
Qed.

Lemma removelast_length {A : Type} (l : list A) :
  List.length (removelast l) = (List.length l - 1)%nat.
Proof.
  induction l as [|x [|y l'] IH]; [reflexivity|reflexivity|].
  change (removelast (x :: y :: l')) with (x :: removelast (y :: l')).
  cbn [List.length] in *. lia.
Qed.

(** What follows a list of notes turns at most its last silence on. *)
Lemma spec_segments_followed (shown : number -> number) (notes : list Note) :
  forall (c : number),
    exists tail,
      spec_segments shown options true c notes =
      spec_segments shown options false c notes ++ tail.
Proof.
  induction notes as [|note rest IH]; intros c.
  - exists []. reflexivity.
  - cbn [spec_segments]. destruct rest as [|n1 rest1].
    + cbn [spec_segments negb]. rewrite andb_false_r, andb_true_r, !app_nil_r.
      eexists. rewrite <- app_comm_cons. cbn [app]. reflexivity.
    + destruct (IH (add c (advance options note))) as [tail Htail].
      rewrite Htail. exists tail.
      rewrite app_comm_cons, !app_assoc. reflexivity.
Qed.



End Shape.

(** X4.  The compiled chain has one sounding segment per note and one
    silence segment per note with a positive rest that is not the last: its
    length is the number of notes plus the number of those rests, hence
    between [n] and [2n - 1] for [n >= 1] notes. *)
Theorem segment_count :
  forall (notes : list Note) (options : ConverterOptions),
    List.length (segments_of (generateBytebeat notes options)) =
      (List.length notes + List.length (rests_compiled notes))%nat /\
    (List.length notes <=
       List.length (segments_of (generateBytebeat notes options)))%nat /\
    (List.length (segments_of (generateBytebeat notes options)) <=
       2 * List.length notes - 1)%nat.
Proof.
  intros notes options.
  assert (Hlen : List.length (segments_of (generateBytebeat notes options)) =
                 (List.length notes + List.length (rests_compiled notes))%nat).
  { destruct notes as [|n rest]; [reflexivity|].
    rewrite generateBytebeat_nonempty by discriminate.
    apply spec_segments_length. }
  split; [exact Hlen|]. rewrite Hlen. split; [lia|].
  unfold rests_compiled.
  pose proof (filter_length_le (fun note => gt (restAfter note) (Fin 0))
                               (removelast notes)) as Hf.
  rewrite removelast_length in Hf. lia.
Qed.



(** * The notes that are compiled *)

Section ActiveNotes.

Variable options : ConverterOptions.

Lemma evalChain_prefix (X Y : list segment) (t : number) :
  evalChain (X ++ Y) t = evalChain X t \/ evalChain X t = Fin 0.
Proof.
  induction X as [|s X IH]; cbn [app evalChain].
  - right. reflexivity.
  - destruct (seg_cond s t); [left; reflexivity|exact IH].
Qed.

Lemma generateBytebeat_firstn (notes : list Note) (k : nat) (t : number) :
  eval (generateBytebeat (firstn k notes) options) t =
    eval (generateBytebeat notes options) t \/
  eval (generateBytebeat (firstn k notes) options) t = Fin 0.
Proof.
  rewrite <- (firstn_skipn k notes) at 2.
  destruct (firstn k notes) as [|n pre] eqn:Epre; [right; reflexivity|].
  destruct (skipn k notes) as [|m post] eqn:Epost.
  - rewrite app_nil_r. left. reflexivity.
  - rewrite !generateBytebeat_nonempty by discriminate.
    rewrite spec_segments_app.
    destruct (spec_segments_followed options toFixed2 (n :: pre) (Fin 0))
      as [tail Htail].
    rewrite Htail, <- app_assoc. cbn [eval].
    destruct (evalChain_prefix
                (spec_segments toFixed2 options false (Fin 0) (n :: pre))
                (tail ++ spec_segments toFixed2 options false
                           (cursor_after options (Fin 0) (n :: pre)) (m :: post))
                t) as [H|H]; [left|right]; congruence.
Qed.

(** The segments depend on the notes through their durations, coefficients
    and rests only. *)
Lemma spec_segments_ext (shown : number -> number) (l l' : list Note) :
  Forall2 (fun n n' => duration n = duration n' /\ coeff n = coeff n' /\
                       restAfter n = restAfter n') l l' ->
  forall (followed : bool) (c : number),
    spec_segments shown options followed c l =
    spec_segments shown options followed c l'.
Proof.
  induction 1 as [|n n' l l' [Hd [Hc Hr]] Hall IH]; intros followed c;
    [reflexivity|].
  cbn [spec_segments]. unfold advance. rewrite Hd, Hc, Hr, IH.
  destruct Hall; reflexivity.
Qed.

(** The kinds, periods and thresholds depend on the durations and rests
    only. *)
Lemma spec_segments_timing_map (shown : number -> number) (f : Note -> Note)
      (l : list Note) :
  (forall n, duration (f n) = duration n /\ restAfter (f n) = restAfter n) ->
  forall (followed : bool) (c : number),
    map seg_timing (spec_segments shown options followed c (map f l)) =
    map seg_timing (spec_segments shown options followed c l).
Proof.
  intros Hf. induction l as [|n l IH]; intros followed c; [reflexivity|].
  cbn [map spec_segments]. unfold advance.
  destruct (Hf n) as [-> ->]. rewrite !map_app, IH.
  destruct l; reflexivity.
Qed.

Lemma generateBytebeat_timing_map (f : Note -> Note) (l : list Note) :
  (forall n, duration (f n) = duration n /\ restAfter (f n) = restAfter n) ->
  map seg_timing (segments_of (generateBytebeat (map f l) options)) =
  map seg_timing (segments_of (generateBytebeat l options)).
Proof.
  intros Hf. destruct l as [|n l]; [reflexivity|].
  cbn [map]. rewrite !generateBytebeat_nonempty by discriminate.
  cbn [segments_of]. apply (spec_segments_timing_map toFixed2 f (n :: l) Hf).
Qed.

Lemma slice0_map {A B : Type} (f : A -> B) (l : list A) (end_ : number) :
  slice0 (map f l) end_ = map f (slice0 l end_).
Proof.
  unfold slice0. rewrite length_map. apply firstn_map.
Qed.

End ActiveNotes.

(** X6.  Limiting the number of notes only silences: at every time the
    expression compiled from the first notes yields what the expression
    compiled from all the notes yields, or zero. *)
Theorem note_limit_only_silences :
  forall (notes : list Note) (noteLimit : number) (options : ConverterOptions)
         (t : number),
    eval (generateBytebeat (slice0 notes noteLimit) options) t =
      eval (generateBytebeat notes options) t \/
    eval (generateBytebeat (slice0 notes noteLimit) options) t = Fin 0.
Proof.
  intros notes noteLimit options t. unfold slice0.
  apply generateBytebeat_firstn.
Qed.

(** X7.  Transposing never changes the timing: whatever the two
    transpositions, the compiled expressions have the same kinds of
    segments with the same periods and thresholds. *)
Theorem transposition_keeps_timing :
  forall (Math_pow : number -> number -> number) (notes : list Note)
         (transpose transpose' noteLimit : number) (options : ConverterOptions),
    map seg_timing
        (segments_of (appExpression Math_pow notes transpose noteLimit options)) =
    map seg_timing
        (segments_of (appExpression Math_pow notes transpose' noteLimit options)).
Proof.
  intros Math_pow notes transpose transpose' noteLimit options.
  unfold appExpression, activeNotes, transposedNotes.
  rewrite !slice0_map.
  rewrite !generateBytebeat_timing_map by (intros n; split; reflexivity).
  reflexivity.
Qed.

(** X8.  The compiled expression depends on the notes through their
    pitches, durations and rests only: the identifiers, the start times and
    the coefficients stored in the notes are never read. *)
Theorem expression_reads_pitch_duration_rest_only :
  forall (Math_pow : number -> number -> number) (notes notes' : list Note)
         (transpose noteLimit : number) (options : ConverterOptions),
    map (fun n => (pitch n, duration n, restAfter n)) notes =
    map (fun n => (pitch n, duration n, restAfter n)) notes' ->
    appExpression Math_pow notes transpose noteLimit options =
    appExpression Math_pow notes' transpose noteLimit options.
Proof.
  intros Math_pow notes notes' transpose noteLimit options Hmap.
  unfold appExpression, activeNotes, transposedNotes.
  rewrite !slice0_map.
  assert (Hlen : List.length notes = List.length notes').
  { rewrite <- (length_map (fun n => (pitch n, duration n, restAfter n)) notes),
            Hmap. apply length_map. }
  unfold slice0. rewrite Hlen.
  set (k := Z.to_nat (slice_end (Z.of_nat (List.length notes')) noteLimit)).
  assert (Hk : map (fun n => (pitch n, duration n, restAfter n)) (firstn k notes) =
               map (fun n => (pitch n, duration n, restAfter n)) (firstn k notes'))
    by (rewrite <- !firstn_map, Hmap; reflexivity).
  clear Hmap Hlen. revert Hk.
  generalize (firstn k notes) (firstn k notes'). clear k notes notes'.
  intros l l' Hmap.
  assert (Hall : Forall2 (fun n n' => duration n = duration n' /\
                                      coeff n = coeff n' /\
                                      restAfter n = restAfter n')
                         (map (transposeNote Math_pow transpose options) l)
                         (map (transposeNote Math_pow transpose options) l')).
  { revert l' Hmap. induction l as [|n l IH]; intros [|n' l'] Hmap;
      try discriminate; [constructor|].
    cbn [map] in *. injection Hmap as Hp Hd Hr Hrest.
    constructor; [|apply IH; exact Hrest].
    unfold transposeNote. cbn [duration coeff restAfter]. rewrite Hp.
    repeat split; assumption. }
  destruct l as [|n l]; destruct l' as [|n' l']; try discriminate;
    [reflexivity|].
  cbn [map] in *. rewrite !generateBytebeat_nonempty by discriminate.
  f_equal. apply (spec_segments_ext options toFixed2 _ _ Hall).
Qed.

Lemma expression_reads_pitch_duration_rest_only_witness :
  appExpression (fun _ _ => Fin 1)
    [mkNote "a" (Fin 60) (Fin 0) (Fin 1) (Fin 1) (Fin 0)] (Fin 0) (Fin 1)
    unit_options =
  appExpression (fun _ _ => Fin 1)
    [mkNote "b" (Fin 60) (Fin 7) (Fin 1) (Fin 5) (Fin 0)] (Fin 0) (Fin 1)
    unit_options.
Proof.
  apply (expression_reads_pitch_duration_rest_only (fun _ _ => Fin 1)).
  reflexivity.
Defined.

(** * Further properties of the synthesizer *)

Section Frames.



Lemma onaudioprocess_length (n : nat) :
  forall s : Synth, List.length (fst (onaudioprocess n s)) = n.
Proof.
  induction n as [|n IH]; intros s; [reflexivity|].
  rewrite onaudioprocess_unfold. cbn [fst List.length]. rewrite IH. reflexivity.
Qed.

Lemma constant_zero_frames (n : nat) :
  forall s : Synth,
    func s = eval Zero ->
    Forall (fun x => x == -1) (fst (onaudioprocess n s)).
Proof.
  induction n as [|n IH]; intros s Hs; [constructor|].
  rewrite onaudioprocess_unfold. cbn [fst]. constructor.
  - unfold renderSample. cbn [fst]. rewrite Hs. reflexivity.
  - apply IH. exact Hs.
Qed.

End Frames.





(** X11.  Without notes every frame is -1: whatever the options, the sample
    rate and the number of frames, the buffer is filled with that many
    samples, all equal to -1. *)
Theorem no_notes_constant_output :
  forall (options : ConverterOptions) (sampleRate : number) (n : nat),
    List.length
      (fst (onaudioprocess n (startPlayback (generateBytebeat [] options)
                                            options sampleRate))) = n /\
    Forall (fun x => x == -1)
      (fst (onaudioprocess n (startPlayback (generateBytebeat [] options)
                                            options sampleRate))).
Proof.
  intros options sampleRate n. split; [apply onaudioprocess_length|].
  apply constant_zero_frames. reflexivity.
Qed.

(** X12.  The progress shown while playing stays in [0, 1): along a session
    started with a positive period and a positive ratio, the accumulator
    divided by the period of the same options is a number from 0 up to, but
    not including, 1. *)
Theorem progress_within_unit_interval :
  forall (e : expression) (options : ConverterOptions) (sampleRate : number)
         (p r : Q) (s : Synth),
    totalPeriod options = Fin p -> 0 < p ->
    div virtualSampleRate sampleRate = Fin r -> 0 < r ->
    session (startPlayback e options sampleRate) s ->
    exists x : Q, playProgress s options = Fin x /\ 0 <= x /\ x < 1.
Proof.
  intros e options sampleRate p r s Hp Hp0 Hr Hr0 Hs.
  destruct (session_accumulator (startPlayback e options sampleRate)
              s p r Hp Hp0 Hr Hr0 eq_refl Hs) as [v [Hv [Hv0 Hvp]]].
  unfold playProgress. rewrite Hv, Hp. cbn [div].
  destruct (Qeq_bool p 0) eqn:E.
  - apply Qeq_bool_iff in E. lra.
  - exists (v / p). split; [reflexivity|]. split.
    + apply Qle_shift_div_l; [exact Hp0|]. lra.
    + apply Qlt_shift_div_r; [exact Hp0|]. lra.
Qed.

Lemma progress_within_unit_interval_witness :
  exists x : Q,
    playProgress
      (snd (onaudioprocess 3 (startPlayback Zero DEFAULT_OPTIONS (Fin 44100))))
      DEFAULT_OPTIONS = Fin x /\ 0 <= x /\ x < 1.
Proof.
  apply (progress_within_unit_interval Zero DEFAULT_OPTIONS (Fin 44100)
           64000 (8000 / 44100) _ eq_refl eq_refl eq_refl eq_refl).
  apply onaudioprocess_session.
Defined.

(** * Further properties of the written coefficients *)

Section Rounding.

Lemma Qfloor_half (k : Z) : Qfloor (inject_Z k + (1 # 2)) = k.
Proof.
  assert (Hlo : (k <= Qfloor (inject_Z k + (1 # 2)))%Z).
  { rewrite <- (Qfloor_Z k) at 1. apply Qfloor_resp_le. lra. }
  assert (Hhi : (Qfloor (inject_Z k + (1 # 2)) < k + 1)%Z).
  { rewrite Zlt_Qlt, inject_Z_plus.
    pose proof (Qfloor_le (inject_Z k + (1 # 2))). change (inject_Z 1) with 1. lra. }
  lia.
Qed.


(** A multiple of 1/100 is written unchanged. *)
Lemma round2_hundredths (y : Q) (m : Z) :
  y == inject_Z m / 100 -> round2 y = Qred y.
Proof.
  intros Hy. unfold round2. apply Qred_complete.
  unfold Qdiv in Hy. change (/ 100) with (1 # 100) in Hy.
  assert (Habs : Qabs y * 100 == inject_Z (Z.abs m)).
  { destruct (Z_lt_le_dec m 0) as [Hm|Hm].
    - rewrite Z.abs_neq by lia. rewrite inject_Z_opp.
      assert (Hm' : inject_Z m < inject_Z 0) by (rewrite <- Zlt_Qlt; lia).
      change (inject_Z 0) with 0 in Hm'.
      assert (Hy0 : y <= 0) by lra.
      pose proof (Qabs_neg y Hy0) as Ha. lra.
    - rewrite Z.abs_eq by lia.
      assert (Hm' : inject_Z 0 <= inject_Z m) by (rewrite <- Zle_Qle; lia).
      change (inject_Z 0) with 0 in Hm'.
      assert (Hy0 : 0 <= y) by lra.
      pose proof (Qabs_pos y Hy0) as Ha. lra. }
  rewrite (Qfloor_comp _ _ (Qplus_comp _ _ Habs _ _ (Qeq_refl (1 # 2)))).
  rewrite Qfloor_half.
  destruct (Qlt_bool y 0) eqn:E.
  - apply Qlt_bool_iff in E.
    assert (Hm : (m < 0)%Z).
    { rewrite Zlt_Qlt. change (inject_Z 0) with 0. lra. }
    rewrite Z.abs_neq by lia. rewrite Z.opp_involutive.
    unfold Qdiv. change (/ 100) with (1 # 100). symmetry. exact Hy.
  - apply Qlt_bool_false_iff in E.
    assert (Hm : (0 <= m)%Z).
    { rewrite Zle_Qle. change (inject_Z 0) with 0. lra. }
    rewrite Z.abs_eq by lia.
    unfold Qdiv. change (/ 100) with (1 # 100). symmetry. exact Hy.
Qed.

Lemma round2_is_hundredths (q : Q) : exists m : Z, round2 q == inject_Z m / 100.
Proof.
  unfold round2. destruct (Qlt_bool q 0); eexists; rewrite Qred_correct; reflexivity.
Qed.

Lemma round2_idempotent (q : Q) : round2 (round2 q) = round2 q.
Proof.
  destruct (round2_is_hundredths q) as [m Hm].
  rewrite (round2_hundredths _ m Hm).
  unfold round2 at 2. apply Qred_complete, Qred_correct.
Qed.

End Rounding.


(** X17.  Writing a coefficient with two decimals is idempotent: a
    coefficient that was already written is written unchanged. *)
Theorem toFixed2_idempotent :
  forall a : number, toFixed2 (toFixed2 a) = toFixed2 a.
Proof.
  intros [ | | |q]; try reflexivity.
  assert (Hfin : forall x : Q,
             toFixed2 (Fin x) =
             if Qle_bool (inject_Z (10 ^ 21)) (Qabs x) then Fin x
             else Fin (round2 x)) by reflexivity.
  rewrite (Hfin q).
  destruct (Qle_bool (inject_Z (10 ^ 21)) (Qabs q)) eqn:E; rewrite Hfin.
  - rewrite E. reflexivity.
  - rewrite round2_idempotent.
    destruct (Qle_bool (inject_Z (10 ^ 21)) (Qabs (round2 q))); reflexivity.
Qed.

(** * The names of the notes *)

Section NoteNames.

Lemma MIDI_PITCH_MAP_get_int (q : Q) (k : Z) :
  q == inject_Z k ->
  MIDI_PITCH_MAP_get (Fin q) =
  option_map snd (find (fun entry => (fst entry =? k)%Z) MIDI_PITCH_MAP).
Proof.
  intros Hq. unfold MIDI_PITCH_MAP_get.
  rewrite (Qfloor_comp _ _ Hq), Qfloor_Z.
  replace (Qeq_bool q (inject_Z k)) with true
    by (symmetry; apply Qeq_bool_iff; exact Hq).
  reflexivity.
Qed.

Lemma ToString_int (q : Q) (k : Z) :
  q == inject_Z k -> (Z.abs k <= 2 ^ 53)%Z ->
  ToString (Fin q) = Some (show_Z k).
Proof.
  intros Hq Hk. unfold ToString.
  rewrite (Qfloor_comp _ _ Hq), Qfloor_Z.
  replace (Qeq_bool q (inject_Z k)) with true
    by (symmetry; apply Qeq_bool_iff; exact Hq).
  replace (Qle_bool (Qabs q) (inject_Z (2 ^ 53))) with true; [reflexivity|].
  symmetry. apply Qle_bool_iff.
  assert (Hlo : inject_Z (- 2 ^ 53) <= inject_Z k) by (rewrite <- Zle_Qle; lia).
  assert (Hhi : inject_Z k <= inject_Z (2 ^ 53)) by (rewrite <- Zle_Qle; lia).
  rewrite inject_Z_opp in Hlo.
  set (B := inject_Z (2 ^ 53)) in *.
  apply Qabs_case; intros _; lra.
Qed.

Lemma octave_of_integer (z : Z) :
  exists q : Q,
    sub (floor (div (Fin (inject_Z z)) (Fin 12))) (Fin 1) = Fin q /\
    q == inject_Z (z / 12 - 1).
Proof.
  eexists. split; [reflexivity|].
  change 12 with (inject_Z 12). rewrite <- Zdiv_Qdiv.
  unfold Z.sub. rewrite inject_Z_plus, inject_Z_opp. reflexivity.
Qed.

Lemma rem_of_integer (z : Z) :
  exists q : Q,
    rem (Fin (inject_Z z)) (Fin 12) = Fin q /\
    q == inject_Z (Z.rem z 12).
Proof.
  eexists. split; [reflexivity|].
  assert (Ht : Qtrunc (inject_Z z / 12) = Z.quot z 12).
  { unfold Qtrunc. cbn. rewrite Z.mul_1_r. reflexivity. }
  rewrite Ht. rewrite (Z.rem_eq z 12) by lia.
  unfold Z.sub. rewrite inject_Z_plus, inject_Z_opp, inject_Z_mult.
  change (inject_Z 12) with 12. ring.
Qed.

Lemma getNoteName_integer (z : Z) :
  (Z.abs (z / 12 - 1) <= 2 ^ 53)%Z ->
  getNoteName (Fin (inject_Z z)) =
  Some ((match option_map snd
                 (find (fun entry => (fst entry =? Z.rem z 12)%Z) MIDI_PITCH_MAP)
         with Some s => s | None => "undefined" end)
          ++ show_Z (z / 12 - 1))%string.
Proof.
  intros Hb. unfold getNoteName.
  destruct (octave_of_integer z) as [o [-> Ho]].
  destruct (rem_of_integer z) as [x [-> Hx]].
  rewrite (ToString_int o _ Ho Hb), (MIDI_PITCH_MAP_get_int x _ Hx).
  reflexivity.
Qed.

Lemma same_text_refl (a : option string) : same_text a a = true.
Proof. destruct a; [apply String.eqb_refl|reflexivity]. Qed.

Lemma midi_pitches_in (z : Z) : (0 <= z <= 127)%Z -> In z midi_pitches.
Proof.
  intros Hz. unfold midi_pitches.
  rewrite <- (Z2Nat.id z) by lia. apply in_map. apply in_seq. lia.
Qed.

Lemma midi_names_distinct :
  forallb (fun a =>
     forallb (fun b =>
        implb (same_text (getNoteName (Fin (inject_Z a)))
                         (getNoteName (Fin (inject_Z b))))
              (a =? b)%Z)
       midi_pitches)
    midi_pitches = true.
Proof. vm_compute. reflexivity. Qed.

End NoteNames.

(** X18.  The name of an integer pitch from 0 up to 2^31 is the name of its
    pitch class, the pitch modulo 12, followed by its octave, the pitch
    divided by 12 minus 1; pitches an octave apart have the same letter and
    consecutive octaves. *)
Theorem getNoteName_pitch_class_and_octave :
  forall z : Z,
    (0 <= z < 2 ^ 31)%Z ->
    getNoteName (Fin (inject_Z z)) =
      Some (nth (Z.to_nat (z mod 12)) (map snd MIDI_PITCH_MAP) ""
              ++ show_Z (z / 12 - 1))%string /\
    getNoteName (Fin (inject_Z (z + 12))) =
      Some (nth (Z.to_nat (z mod 12)) (map snd MIDI_PITCH_MAP) ""
              ++ show_Z (z / 12 - 1 + 1))%string.
Proof.
  assert (H31 : (2 ^ 31 = 2147483648)%Z) by reflexivity.
  assert (H53 : (2 ^ 53 = 9007199254740992)%Z) by reflexivity.
  assert (Hlookup : forall k, (0 <= k < 12)%Z ->
            match option_map snd
                    (find (fun entry => (fst entry =? k)%Z) MIDI_PITCH_MAP)
            with Some s => s | None => "undefined"%string end =
            nth (Z.to_nat k) (map snd MIDI_PITCH_MAP) ""%string).
  { intros k Hk.
    assert (Hcases : (k = 0 \/ k = 1 \/ k = 2 \/ k = 3 \/ k = 4 \/ k = 5 \/
                      k = 6 \/ k = 7 \/ k = 8 \/ k = 9 \/ k = 10 \/ k = 11)%Z)
      by lia.
    repeat (destruct Hcases as [-> | Hcases]; [reflexivity|]).
    subst k. reflexivity. }
  assert (Hname : forall y, (0 <= y < 2 ^ 31 + 12)%Z ->
            getNoteName (Fin (inject_Z y)) =
            Some (nth (Z.to_nat (y mod 12)) (map snd MIDI_PITCH_MAP) ""
                    ++ show_Z (y / 12 - 1))%string).
  { intros y Hy.
    assert (Hq : (0 <= y / 12 < 2 ^ 31)%Z).
    { split; [apply Z.div_pos; lia|].
      apply Z.div_lt_upper_bound; lia. }
    rewrite getNoteName_integer by lia.
    rewrite Z.rem_mod_nonneg by lia.
    rewrite Hlookup by (apply Z.mod_pos_bound; lia). reflexivity. }
  intros z Hz. split; [apply Hname; lia|].
  rewrite Hname by lia.
  replace (z + 12)%Z with (z + 1 * 12)%Z by lia.
  rewrite Z.mod_add, Z.div_add by lia.
  do 3 f_equal. lia.
Qed.

Lemma getNoteName_pitch_class_and_octave_witness :
  getNoteName (Fin (inject_Z 60)) = Some "C4"%string /\
  getNoteName (Fin (inject_Z (60 + 12))) = Some "C5"%string.
Proof.
  apply (getNoteName_pitch_class_and_octave 60). split; [discriminate|reflexivity].
Defined.

(** X19.  On the MIDI range the name identifies the pitch: two integer
    pitches from 0 to 127 with the same name are the same pitch. *)
Theorem getNoteName_injective_on_midi_range :
  forall z1 z2 : Z,
    (0 <= z1 <= 127)%Z -> (0 <= z2 <= 127)%Z ->
    getNoteName (Fin (inject_Z z1)) = getNoteName (Fin (inject_Z z2)) ->
    z1 = z2.
Proof.
  intros z1 z2 H1 H2 Heq.
  pose proof midi_names_distinct as Hall.
  rewrite forallb_forall in Hall.
  specialize (Hall z1 (midi_pitches_in z1 H1)).
  rewrite forallb_forall in Hall.
  specialize (Hall z2 (midi_pitches_in z2 H2)).
  rewrite Heq, same_text_refl in Hall. cbn [implb] in Hall.
  apply Z.eqb_eq. exact Hall.
Qed.

Lemma getNoteName_injective_on_midi_range_witness : 60%Z = 60%Z.
Proof.
  apply (getNoteName_injective_on_midi_range 60 60); try lia. reflexivity.
Defined.

(** X20.  A negative integer pitch above -2^31 that is not a multiple of 12
    has no name in the table, the remainder of [%] being negative: its text
    starts with ["undefined"], followed by the octave. *)
Theorem getNoteName_negative_pitch_undefined :
  forall z : Z,
    (- 2 ^ 31 < z < 0)%Z -> (z mod 12 <> 0)%Z ->
    getNoteName (Fin (inject_Z z)) =
    Some ("undefined" ++ show_Z (z / 12 - 1))%string.
Proof.
  intros z Hz Hmod.
  assert (H31 : (2 ^ 31 = 2147483648)%Z) by reflexivity.
  assert (H53 : (2 ^ 53 = 9007199254740992)%Z) by reflexivity.
  assert (Hq : (- 2 ^ 31 <= z / 12 < 0)%Z).
  { split; [apply Z.div_le_lower_bound; lia|apply Z.div_lt_upper_bound; lia]. }
  rewrite getNoteName_integer by lia.
  assert (Hrem : (Z.rem z 12 < 0)%Z).
  { assert (Hle : (Z.rem z 12 <= 0)%Z) by (apply Z.rem_nonpos; lia).
    assert (Hne : Z.rem z 12 <> 0%Z).
    { intros H0. apply Hmod. apply Z.rem_divide in H0; [|lia].
      apply Z.mod_divide; [lia|exact H0]. }
    lia. }
  unfold MIDI_PITCH_MAP. cbn [find fst].
  repeat match goal with
         | |- context [(?k =? Z.rem z 12)%Z] =>
             replace (k =? Z.rem z 12)%Z with false
               by (symmetry; apply Z.eqb_neq; lia)
         end.
  reflexivity.
Qed.

Lemma getNoteName_negative_pitch_undefined_witness :
  getNoteName (Fin (inject_Z (-7))) = Some "undefined-2"%string.
Proof.
  apply (getNoteName_negative_pitch_undefined (-7)); [split; reflexivity|discriminate].
Defined.

(** * The parser *)

Section ParserFacts.

Variable Math_pow : number -> number -> number.
Variable Date_now : Z -> Z.
Variable options : ConverterOptions.

Lemma mapFrom_length {A B : Type} (f : A -> Z -> B) (l : list A) :
  forall i : Z, List.length (mapFrom f i l) = List.length l.
Proof.
  induction l as [|x l IH]; intros i; [reflexivity|].
  cbn [mapFrom List.length]. rewrite IH. reflexivity.
Qed.

Lemma mapFrom_map {A B C : Type} (f : A -> Z -> B) (g : B -> C) (h : A -> C)
      (l : list A) :
  (forall a i, g (f a i) = h a) ->
  forall i : Z, map g (mapFrom f i l) = map h l.
Proof.
  intros Hgh. induction l as [|x l IH]; intros i; [reflexivity|].
  cbn [mapFrom map]. rewrite Hgh, IH. reflexivity.
Qed.

Lemma mapFrom_in {A B : Type} (f : A -> Z -> B) (l : list A) :
  forall (i : Z) (y : B),
    In y (mapFrom f i l) -> exists a j, (i <= j)%Z /\ y = f a j.
Proof.
  induction l as [|x l IH]; intros i y Hin; [destruct Hin|].
  cbn [mapFrom In] in Hin. destruct Hin as [<-|Hin].
  - exists x, i. split; [lia|reflexivity].
  - destruct (IH _ _ Hin) as [a [j [Hj Hy]]]. exists a, j. split; [lia|exact Hy].
Qed.

(** The track that is parsed: the first one with notes. *)
Lemma parseMidiFile_first_track (before after : list Midi.track) (t : Midi.track) :
  Forall (fun t' => Midi.notes t' = []) before ->
  Midi.notes t <> [] ->
  parseMidiFile Math_pow Date_now (before ++ t :: after) options =
  mapFrom (parsedNote Math_pow Date_now options) 0%Z (Midi.notes t).
Proof.
  intros Hbefore Ht. unfold parseMidiFile.
  assert (Hfind : find (fun t' => (0 <? Z.of_nat (List.length (Midi.notes t')))%Z)
                       (before ++ t :: after) = Some t).
  { induction Hbefore as [|t' before Ht' _ IH]; cbn [app find].
    - destruct (Midi.notes t); [congruence|reflexivity].
    - rewrite Ht'. cbn. exact IH. }
  rewrite Hfind. reflexivity.
Qed.

Lemma parseMidiFile_no_notes (tracks : list Midi.track) :
  Forall (fun t => Midi.notes t = []) tracks ->
  parseMidiFile Math_pow Date_now tracks options = [].
Proof.
  intros Hall. unfold parseMidiFile.
  assert (Hfind : find (fun t => (0 <? Z.of_nat (List.length (Midi.notes t)))%Z)
                       tracks = None).
  { induction Hall as [|t tracks Ht _ IH]; [reflexivity|].
    cbn [find]. rewrite Ht. cbn. exact IH. }
  rewrite Hfind. destruct Hall as [|t tracks Ht _]; [reflexivity|].
  cbn [nth_error]. rewrite Ht. reflexivity.
Qed.

End ParserFacts.

(** X21.  The parser reads the first track that has notes and nothing else:
    tracks without notes before it are skipped, the tracks after it are
    ignored, and the notes come out in order with the pitch, start time and
    duration of the track's notes and the rest of the options; when no track
    has notes, or there is no track, the result is empty. *)
Theorem parseMidiFile_reads_first_track_with_notes :
  forall (Math_pow : number -> number -> number) (Date_now : Z -> Z)
         (before after : list Midi.track) (t : Midi.track)
         (options : ConverterOptions),
    Forall (fun t' => Midi.notes t' = []) before ->
    parseMidiFile Math_pow Date_now before options = [] /\
    (Midi.notes t <> [] ->
     let parsed := parseMidiFile Math_pow Date_now (before ++ t :: after) options in
     map pitch parsed = map Midi.midi (Midi.notes t) /\
     map startTime parsed = map Midi.time (Midi.notes t) /\
     map duration parsed = map Midi.duration (Midi.notes t) /\
     Forall (fun note => restAfter note = restDuration options) parsed).
Proof.
  intros Math_pow Date_now before after t options Hbefore.
  split; [apply parseMidiFile_no_notes; exact Hbefore|].
  intros Ht parsed. unfold parsed.
  rewrite (parseMidiFile_first_track Math_pow Date_now options before after t
             Hbefore Ht).
  repeat split; try (apply mapFrom_map; reflexivity).
  apply Forall_forall. intros note Hin.
  apply mapFrom_in in Hin as [a [j [_ ->]]]. reflexivity.
Qed.

Lemma parseMidiFile_reads_first_track_with_notes_witness :
  map pitch
    (parseMidiFile (fun _ _ => Fin 1) (fun _ => 0%Z)
       ([Midi.mkTrack []] ++
        Midi.mkTrack [Midi.mkNote (Fin 60) (Fin 0) (Fin 1)] ::
        [Midi.mkTrack [Midi.mkNote (Fin 72) (Fin 0) (Fin 1)]])
       DEFAULT_OPTIONS) = [Fin 60].
Proof.
  apply (parseMidiFile_reads_first_track_with_notes (fun _ _ => Fin 1)
           (fun _ => 0%Z) [Midi.mkTrack []]
           [Midi.mkTrack [Midi.mkNote (Fin 72) (Fin 0) (Fin 1)]]
           (Midi.mkTrack [Midi.mkNote (Fin 60) (Fin 0) (Fin 1)])
           DEFAULT_OPTIONS).
  - apply Forall_cons; [reflexivity|apply Forall_nil].
  - discriminate.
Defined.

Section UploadFacts.

Variable Math_pow : number -> number -> number.
Variable Date_now : Z -> Z.
Variable options : ConverterOptions.

Lemma parseMidiFile_shape (tracks : list Midi.track) :
  exists l : list Midi.note,
    parseMidiFile Math_pow Date_now tracks options =
    mapFrom (parsedNote Math_pow Date_now options) 0%Z l.
Proof.
  unfold parseMidiFile.
  destruct (find _ tracks) as [t|]; [exists (Midi.notes t); reflexivity|].
  destruct (nth_error tracks 0) as [t|]; [exists (Midi.notes t)|exists []];
    reflexivity.
Qed.

Lemma slice0_full {A : Type} (l : list A) :
  slice0 l (Fin (inject_Z (Z.of_nat (List.length l)))) = l.
Proof.
  unfold slice0, slice_end. rewrite Qtrunc_inject_Z.
  replace (Z.of_nat (List.length l) <? 0)%Z with false
    by (symmetry; apply Z.ltb_ge; lia).
  rewrite Z.min_id, Nat2Z.id. apply firstn_all.
Qed.

Lemma removelast_incl {A : Type} (l : list A) (x : A) :
  In x (removelast l) -> In x l.
Proof.
  induction l as [|y [|z l'] IH]; [intros []|intros []|].
  change (removelast (y :: z :: l')) with (y :: removelast (z :: l')).
  intros [->|Hin]; [left; reflexivity|right; apply IH; exact Hin].
Qed.

Lemma rests_compiled_constant (rd : number) (l : list Note) :
  Forall (fun note => restAfter note = rd) l ->
  List.length (rests_compiled l) =
  if gt rd (Fin 0) then (List.length l - 1)%nat else 0%nat.
Proof.
  intros Hall. unfold rests_compiled.
  assert (Hrem : Forall (fun note => restAfter note = rd) (removelast l)).
  { apply Forall_forall. intros x Hx. rewrite Forall_forall in Hall.
    apply Hall. apply removelast_incl. exact Hx. }
  rewrite <- (removelast_length l).
  induction Hrem as [|x l' Hx _ IH]; cbn [filter List.length].
  - destruct (gt rd (Fin 0)); reflexivity.
  - rewrite Hx. destruct (gt rd (Fin 0)); cbn [List.length]; lia.
Qed.

(** The decimal text of an integer determines the integer. *)
Lemma show_Z_injective (a b : Z) : show_Z a = show_Z b -> a = b.
Proof.
  unfold show_Z. intros H.
  assert (Hnn : forall z, Z.to_int z <> Decimal.Pos Decimal.Nil /\
                          Z.to_int z <> Decimal.Neg Decimal.Nil).
  { intros [|p|p]; cbn; split; try discriminate;
      intros E; injection E as E;
      exact (DecimalPos.Unsigned.to_uint_nonnil p E). }
  apply (f_equal DecimalString.NilZero.int_of_string) in H.
  destruct (Hnn a) as [Ha1 Ha2]. destruct (Hnn b) as [Hb1 Hb2].
  rewrite !DecimalString.NilZero.isi in H by assumption.
  injection H as H. apply DecimalZ.to_int_inj. exact H.
Qed.

(** The decimal text of a non-negative integer has no [-]. *)
Lemma show_Z_dash_free (z : Z) : (0 <= z)%Z -> dash_free (show_Z z) = true.
Proof.
  intros Hz. unfold show_Z.
  destruct z as [|p|p]; [reflexivity| |lia].
  cbn [Z.to_int DecimalString.NilZero.string_of_int].
  generalize (Pos.to_uint p). intros d.
  assert (Hd : dash_free (DecimalString.NilEmpty.string_of_uint d) = true).
  { induction d; cbn; try reflexivity; exact IHd. }
  destruct d; exact Hd.
Qed.

(** Two texts without [-] that are followed by [-] in the same text are the
    same text. *)
Lemma dash_splits (u v x y : string) :
  dash_free u = true -> dash_free v = true ->
  (u ++ String dash x)%string = (v ++ String dash y)%string ->
  u = v.
Proof.
  revert v. induction u as [|c u IH]; intros [|d v] Hu Hv H; cbn in *.
  - reflexivity.
  - injection H as Hc _. subst d.
    rewrite Ascii.eqb_refl in Hv. discriminate.
  - injection H as Hc _. subst c.
    rewrite Ascii.eqb_refl in Hu. discriminate.
  - injection H as -> H. apply andb_true_iff in Hu as [_ Hu].
    apply andb_true_iff in Hv as [_ Hv]. f_equal. apply (IH v Hu Hv H).
Qed.

Lemma parsedNote_id_index (a b : Midi.note) (i j : Z) :
  (0 <= i)%Z -> (0 <= j)%Z ->
  id (parsedNote Math_pow Date_now options a i) =
  id (parsedNote Math_pow Date_now options b j) ->
  i = j.
Proof.
  intros Hi Hj H. cbn [parsedNote id] in H.
  change ("note-" ++ show_Z i ++ "-" ++ show_Z (Date_now i))%string
    with ("note-" ++ (show_Z i ++ String dash (show_Z (Date_now i))))%string in H.
  change ("note-" ++ show_Z j ++ "-" ++ show_Z (Date_now j))%string
    with ("note-" ++ (show_Z j ++ String dash (show_Z (Date_now j))))%string in H.
  cbn [String.append] in H. injection H as H.
  apply show_Z_injective.
  apply (dash_splits _ _ _ _ (show_Z_dash_free i Hi) (show_Z_dash_free j Hj) H).
Qed.

Lemma mapFrom_ids_distinct (l : list Midi.note) :
  forall i : Z,
    (0 <= i)%Z ->
    NoDup (map id (mapFrom (parsedNote Math_pow Date_now options) i l)).
Proof.
  induction l as [|a l IH]; intros i Hi; cbn [mapFrom map]; constructor.
  - intros Hin. apply in_map_iff in Hin as [y [Hy Hin]].
    apply mapFrom_in in Hin as [b [j [Hj ->]]].
    symmetry in Hy. apply parsedNote_id_index in Hy; lia.
  - apply IH. lia.
Qed.

End UploadFacts.

(** X22.  After a file is loaded, all its notes being kept, the expression
    has a silence segment after every note but the last when the rest of
    the options is positive, and no silence segment at all otherwise: [2n-1]
    or [n] segments for [n] notes. *)
Theorem uploaded_file_segment_count :
  forall (Math_pow : number -> number -> number) (Date_now : Z -> Z)
         (tracks : list Midi.track) (options : ConverterOptions)
         (transpose : number),
    List.length
      (segments_of
         (appExpression Math_pow
            (parseMidiFile Math_pow Date_now tracks options) transpose
            (Fin (inject_Z (Z.of_nat
               (List.length (parseMidiFile Math_pow Date_now tracks options)))))
            options)) =
    if gt (restDuration options) (Fin 0)
    then (2 * List.length (parseMidiFile Math_pow Date_now tracks options) - 1)%nat
    else List.length (parseMidiFile Math_pow Date_now tracks options).
Proof.
  intros Math_pow Date_now tracks options transpose.
  destruct (parseMidiFile_shape Math_pow Date_now options tracks) as [l ->].
  set (parsed := mapFrom (parsedNote Math_pow Date_now options) 0%Z l).
  unfold appExpression, activeNotes, transposedNotes.
  rewrite slice0_map, slice0_full.
  assert (Hrests : Forall (fun note => restAfter note = restDuration options)
                          (map (transposeNote Math_pow transpose options) parsed)).
  { apply Forall_forall. intros x Hx.
    apply in_map_iff in Hx as [y [<- Hy]].
    apply mapFrom_in in Hy as [a [j [_ ->]]]. reflexivity. }
  pose proof (rests_compiled_constant _ _ Hrests) as Hcount.
  rewrite length_map in Hcount.
  destruct (map (transposeNote Math_pow transpose options) parsed)
    as [|n rest] eqn:E.
  - apply (f_equal (@List.length Note)) in E. rewrite length_map in E.
    rewrite E. destruct (gt (restDuration options) (Fin 0)); reflexivity.
  - rewrite generateBytebeat_nonempty by discriminate. cbn [segments_of].
    rewrite spec_segments_length, Hcount.
    apply (f_equal (@List.length Note)) in E. rewrite length_map in E.
    rewrite <- E.
    destruct (gt (restDuration options) (Fin 0)); lia.
Qed.

(** X23.  The identifiers given to the parsed notes are pairwise distinct,
    whatever the clock returns. *)
Theorem parsed_note_ids_distinct :
  forall (Math_pow : number -> number -> number) (Date_now : Z -> Z)
         (tracks : list Midi.track) (options : ConverterOptions),
    NoDup (map id (parseMidiFile Math_pow Date_now tracks options)).
Proof.
  intros Math_pow Date_now tracks options.
  destruct (parseMidiFile_shape Math_pow Date_now options tracks) as [l ->].
  apply mapFrom_ids_distinct. lia.
Qed.

(** * Notes beyond the period *)

Section BeyondPeriod.



End BeyondPeriod.



(** * Looping and resampling *)

Section Looping.

Lemma Qfloor_unique (x : Q) (n : Z) :
  inject_Z n <= x -> x < inject_Z n + 1 -> Qfloor x = n.
Proof.
  intros Hlo Hhi.
  assert (H1 : (n <= Qfloor x)%Z).
  { rewrite <- (Qfloor_Z n). apply Qfloor_resp_le. exact Hlo. }
  assert (H2 : (Qfloor x < n + 1)%Z).
  { rewrite Zlt_Qlt, inject_Z_plus. change (inject_Z 1) with 1.
    pose proof (Qfloor_le x). lra. }
  lia.
Qed.

(** One period later the remainder is the same. *)
Lemma rem_plus_period (q p : Q) :
  0 <= q -> 0 < p ->
  eqv (rem (Fin (q + p)) (Fin p)) (rem (Fin q) (Fin p)).
Proof.
  intros Hq Hp. cbn [rem].
  destruct (Qeq_bool p 0) eqn:E; [apply Qeq_bool_iff in E; lra|].
  apply Qeq_bool_neq in E. cbn [eqv].
  pose proof (Qmult_div_r q p E) as Hd.
  pose proof (Qmult_div_r (q + p) p E) as Hd'.
  set (d := q / p) in *. set (d' := (q + p) / p) in *.
  assert (Hdd : d' == d + 1) by nra.
  assert (Hd0 : 0 <= d) by nra.
  rewrite (Qtrunc_nonneg d Hd0), (Qtrunc_nonneg d') by lra.
  assert (Hfl : Qfloor d' = (Qfloor d + 1)%Z).
  { apply Qfloor_unique.
    - rewrite inject_Z_plus. change (inject_Z 1) with 1.
      pose proof (Qfloor_le d). lra.
    - rewrite inject_Z_plus. change (inject_Z 1) with 1.
      pose proof (Qlt_floor d) as H. rewrite inject_Z_plus in H.
      change (inject_Z 1) with 1 in H. lra. }
  rewrite Hfl, inject_Z_plus. change (inject_Z 1) with 1. ring.
Qed.

Lemma selected_periodic (segs : list segment) (p q : Q) :
  Forall (fun s => seg_period s = Fin p) segs ->
  0 <= q -> 0 < p ->
  selected segs (Fin (q + p)) = selected segs (Fin q).
Proof.
  intros Hall Hq Hp. induction Hall as [|s segs Hs _ IH]; [reflexivity|].
  cbn [selected]. unfold seg_cond. rewrite Hs.
  rewrite (lt_eqv_l _ _ _ (rem_plus_period q p Hq Hp)), IH. reflexivity.
Qed.

End Looping.

(** X25.  The melody loops with the period: at a time [t >= 0] and one
    period later the same segment of the compiled expression is selected. *)
Theorem selection_repeats_every_period :
  forall (notes : list Note) (options : ConverterOptions) (p q : Q),
    totalPeriod options = Fin p ->
    0 < p -> 0 <= q ->
    selected (segments_of (generateBytebeat notes options)) (Fin (q + p)) =
    selected (segments_of (generateBytebeat notes options)) (Fin q).
Proof.
  intros notes options p q Hp Hp0 Hq.
  apply selected_periodic; [|exact Hq|exact Hp0].
  destruct notes as [|n rest]; [constructor|].
  rewrite generateBytebeat_nonempty by discriminate. cbn [segments_of].
  rewrite <- Hp. apply spec_segments_period.
Qed.

Lemma selection_repeats_every_period_witness :
  selected (segments_of (generateBytebeat [excess_first; excess_last] unit_options))
           (Fin (1 + 10)) =
  selected (segments_of (generateBytebeat [excess_first; excess_last] unit_options))
           (Fin 1).
Proof.
  apply (selection_repeats_every_period [excess_first; excess_last] unit_options
           10 1); reflexivity || discriminate.
Defined.


